(** * Rock-paper-scissors-plus referee: a shallow embedding of [rps_game.py]

    The development follows the source file top to bottom: Python strings,
    the module's globals and the state monad the functions run in, then the
    tool implementations ([validate_move], [resolve_round],
    [update_game_state]), the bot strategy, the referee's response and the
    turn ([run_turn]); the theorems come last. *)

From Stdlib Require Import ZArith List String Ascii Bool Lia DecimalString.
Import ListNotations.

Open Scope string_scope.
Open Scope Z_scope.

(** ** Python strings

    A [str] is modelled as the sequence of its code points, restricted to
    U+0000..U+00FF: one [ascii] per code point.  [lower] and [strip] are
    Python's [str.lower] and [str.strip] on that range. *)

Module PyStr.

Definition code (c : ascii) : N := N_of_ascii c.

(** The code points below 256 that [str.lower] changes: A-Z and the
    capital letters of Latin-1 (U+00C0..U+00DE without the sign U+00D7). *)
Definition isupper (c : ascii) : bool :=
  let n := code c in
  ((65 <=? n) && (n <=? 90))%N
  || ((192 <=? n) && (n <=? 222) && negb (n =? 215))%N.

Definition lower_char (c : ascii) : ascii :=
  if isupper c then ascii_of_N (code c + 32) else c.

(** [str.isspace] on one code point below 256: TAB..CR, FS..US, the space,
    NEL (U+0085) and the no-break space (U+00A0). *)
Definition isspace (c : ascii) : bool :=
  let n := code c in
  ((9 <=? n) && (n <=? 13))%N
  || ((28 <=? n) && (n <=? 32))%N
  || (n =? 133)%N || (n =? 160)%N.

Fixpoint lower (s : string) : string :=
  match s with
  | EmptyString => EmptyString
  | String c s' => String (lower_char c) (lower s')
  end.

Fixpoint lstrip (s : string) : string :=
  match s with
  | EmptyString => EmptyString
  | String c s' => if isspace c then lstrip s' else s
  end.

Fixpoint rstrip (s : string) : string :=
  match s with
  | EmptyString => EmptyString
  | String c s' =>
      match rstrip s' with
      | EmptyString => if isspace c then EmptyString else String c EmptyString
      | r => String c r
      end
  end.

Definition strip (s : string) : string := rstrip (lstrip s).

(** [x in xs] for a collection of strings. *)
Definition mem (x : string) (xs : list string) : bool :=
  existsb (String.eqb x) xs.

(** [str(n)] and the f-string field [{n}] for an [int]. *)
Definition of_int (n : Z) : string := NilZero.string_of_int (Z.to_int n).

End PyStr.

(** ** Dictionaries with a fixed key set *)

(** The dictionary [validate_move] returns; [None] is Python's [None]. *)
Module Val.
Record t : Type := mk {
  valid : bool;
  reason : option string;
  move : option string
}.
End Val.

(** The round result: the dictionary [resolve_round] returns and
    [update_game_state] and [generate_referee_response] read. *)
Module Res.
Record t : Type := mk {
  winner : string;
  user_move : string;
  bot_move : string
}.
End Res.

(** ** Game state *)

Record GameState : Type := mkGameState {
  round : Z;
  user_score : Z;
  bot_score : Z;
  user_bomb_used : bool;
  bot_bomb_used : bool;
  game_over : bool;
  history : list Res.t
}.

(** [GameState.__init__]. *)
Definition GameState_init : GameState :=
  {| round := 0; user_score := 0; bot_score := 0;
     user_bomb_used := false; bot_bomb_used := false;
     game_over := false; history := [] |}.

(** The dictionary of [GameState.to_dict]. *)
Module Snap.
Record t : Type := mk {
  round : Z;
  user_score : Z;
  bot_score : Z;
  user_bomb_used : bool;
  bot_bomb_used : bool;
  game_over : bool;
  history : list Res.t
}.
End Snap.

Definition to_dict (self : GameState) : Snap.t :=
  {| Snap.round := round self;
     Snap.user_score := user_score self;
     Snap.bot_score := bot_score self;
     Snap.user_bomb_used := user_bomb_used self;
     Snap.bot_bomb_used := bot_bomb_used self;
     Snap.game_over := game_over self;
     Snap.history := history self |}.

(** ** The module's globals

    [API_AVAILABLE] is set once when the module is loaded; [state] is the
    single [GameState] object every function below reads and mutates. *)

Record Globals : Type := mkGlobals {
  API_AVAILABLE : bool;
  state : GameState
}.

(** The [try]/[except] at the head of the module: the flag is [True] when
    the environment has [GEMINI_API_KEY] and [genai.configure] does not
    raise ([configure_ok]), [False] in every other case. *)
Definition module_init (GEMINI_API_KEY : option string) (configure_ok : bool)
  : Globals :=
  {| API_AVAILABLE :=
       match GEMINI_API_KEY with
       | Some _ => configure_ok
       | None => false
       end;
     state := GameState_init |}.

(** ** The state monad of the module's functions *)

Definition M (A : Type) : Type := Globals -> A * Globals.

Definition ret {A} (a : A) : M A := fun g => (a, g).

Definition bind {A B} (m : M A) (k : A -> M B) : M B :=
  fun g => let (a, g') := m g in k a g'.

Notation "x <- m ;; k" := (bind m (fun x => k))
  (at level 61, m at next level, right associativity).
Notation "m ;;; k" := (bind m (fun _ => k))
  (at level 61, right associativity).

(** Reading an attribute of [state]. *)
Definition read {A} (field : GameState -> A) : M A :=
  fun g => (field (state g), g).

(** Assigning to attributes of [state]: the object is updated in place, the
    other globals are untouched. *)
Definition assign (f : GameState -> GameState) : M unit :=
  fun g => (tt, {| API_AVAILABLE := API_AVAILABLE g; state := f (state g) |}).

Definition when (b : bool) (m : M unit) : M unit := if b then m else ret tt.

Definition set_round (v : Z) (st : GameState) : GameState :=
  {| round := v; user_score := user_score st; bot_score := bot_score st;
     user_bomb_used := user_bomb_used st; bot_bomb_used := bot_bomb_used st;
     game_over := game_over st; history := history st |}.

Definition set_user_score (v : Z) (st : GameState) : GameState :=
  {| round := round st; user_score := v; bot_score := bot_score st;
     user_bomb_used := user_bomb_used st; bot_bomb_used := bot_bomb_used st;
     game_over := game_over st; history := history st |}.

Definition set_bot_score (v : Z) (st : GameState) : GameState :=
  {| round := round st; user_score := user_score st; bot_score := v;
     user_bomb_used := user_bomb_used st; bot_bomb_used := bot_bomb_used st;
     game_over := game_over st; history := history st |}.

Definition set_user_bomb_used (v : bool) (st : GameState) : GameState :=
  {| round := round st; user_score := user_score st; bot_score := bot_score st;
     user_bomb_used := v; bot_bomb_used := bot_bomb_used st;
     game_over := game_over st; history := history st |}.

Definition set_bot_bomb_used (v : bool) (st : GameState) : GameState :=
  {| round := round st; user_score := user_score st; bot_score := bot_score st;
     user_bomb_used := user_bomb_used st; bot_bomb_used := v;
     game_over := game_over st; history := history st |}.

Definition set_game_over (v : bool) (st : GameState) : GameState :=
  {| round := round st; user_score := user_score st; bot_score := bot_score st;
     user_bomb_used := user_bomb_used st; bot_bomb_used := bot_bomb_used st;
     game_over := v; history := history st |}.

(** [state.history.append(result)]. *)
Definition history_append (r : Res.t) (st : GameState) : GameState :=
  {| round := round st; user_score := user_score st; bot_score := bot_score st;
     user_bomb_used := user_bomb_used st; bot_bomb_used := bot_bomb_used st;
     game_over := game_over st; history := (history st ++ [r])%list |}.

(** ** Tool implementations *)

Definition valid_moves : list string := ["rock"; "paper"; "scissors"; "bomb"].

Definition validate_move (user_input : string) (user_bomb_used : bool) : Val.t :=
  let move := PyStr.strip (PyStr.lower user_input) in
  if negb (PyStr.mem move valid_moves) then
    {| Val.valid := false; Val.reason := Some "Invalid move"; Val.move := None |}
  else if (move =? "bomb")%string && user_bomb_used then
    {| Val.valid := false; Val.reason := Some "Bomb already used"; Val.move := None |}
  else
    {| Val.valid := true; Val.reason := None; Val.move := Some move |}.

(** The list of pairs the user wins with, and [(a, b) in pairs]. *)
Definition user_wins : list (string * string) :=
  [("rock", "scissors"); ("paper", "rock"); ("scissors", "paper")].

Definition pair_mem (p : string * string) (ps : list (string * string)) : bool :=
  existsb (fun q => (fst p =? fst q)%string && (snd p =? snd q)%string) ps.

Definition resolve_round (user_move bot_move : string) : Res.t :=
  if (user_move =? "invalid")%string then
    {| Res.winner := "invalid"; Res.user_move := user_move; Res.bot_move := bot_move |}
  else if (user_move =? bot_move)%string then
    {| Res.winner := "draw"; Res.user_move := user_move; Res.bot_move := bot_move |}
  else if (user_move =? "bomb")%string then
    {| Res.winner := "user"; Res.user_move := user_move; Res.bot_move := bot_move |}
  else if (bot_move =? "bomb")%string then
    {| Res.winner := "bot"; Res.user_move := user_move; Res.bot_move := bot_move |}
  else if pair_mem (user_move, bot_move) user_wins then
    {| Res.winner := "user"; Res.user_move := user_move; Res.bot_move := bot_move |}
  else
    {| Res.winner := "bot"; Res.user_move := user_move; Res.bot_move := bot_move |}.

Definition update_game_state (result : Res.t) : M Snap.t :=
  assign (fun st => set_round (round st + 1) st) ;;;
  when (Res.user_move result =? "bomb")%string (assign (set_user_bomb_used true)) ;;;
  when (Res.bot_move result =? "bomb")%string (assign (set_bot_bomb_used true)) ;;;
  (if (Res.winner result =? "user")%string then
     assign (fun st => set_user_score (user_score st + 1) st)
   else if (Res.winner result =? "bot")%string then
     assign (fun st => set_bot_score (bot_score st + 1) st)
   else ret tt) ;;;
  assign (history_append result) ;;;
  r <- read round ;;
  when (3 <=? r) (assign (set_game_over true)) ;;;
  read to_dict.

(** ** Bot strategy *)

(** [random.choice(seq)] is [seq[i]] for an index [i] below [len(seq)] that
    the generator picks; [draw] is the generator's raw output for the call,
    reduced to an index.  (On an empty sequence Python raises [IndexError];
    no sequence below is empty.) *)
Definition random_choice (draw : nat) (seq : list string) : string :=
  nth (Nat.modulo draw (List.length seq)) seq "".

Definition bot_move (draw : nat) : M string :=
  let moves := ["rock"; "paper"; "scissors"] in
  used <- read bot_bomb_used ;;
  let moves := if negb used then (moves ++ ["bomb"])%list else moves in
  ret (random_choice draw moves).

(** ** Referee response generation *)

Definition newline : string := String (ascii_of_nat 10) EmptyString.

Definition generate_referee_response (result : Res.t) : M string :=
  round_num <- read round ;;
  score_you <- read user_score ;;
  score_bot <- read bot_score ;;
  if (Res.user_move result =? "invalid")%string then
    ret (" Round " ++ PyStr.of_int round_num ++ ": Invalid move! Round wasted."
         ++ newline
         ++ "Score: You " ++ PyStr.of_int score_you
         ++ " | Bot " ++ PyStr.of_int score_bot)
  else
    let msg :=
      if (Res.winner result =? "draw")%string then
        " Round " ++ PyStr.of_int round_num ++ ": Draw! Both played "
        ++ Res.user_move result ++ "."
      else if (Res.winner result =? "user")%string then
        " Round " ++ PyStr.of_int round_num ++ ": You win! "
        ++ Res.user_move result ++ " beats " ++ Res.bot_move result ++ "."
      else
        "Round " ++ PyStr.of_int round_num ++ ": Bot wins! "
        ++ Res.bot_move result ++ " beats " ++ Res.user_move result ++ "."
    in
    ret (msg ++ newline
         ++ "Score: You " ++ PyStr.of_int score_you
         ++ " | Bot " ++ PyStr.of_int score_bot).

(** ** Game turn *)

(** The result [run_turn] builds when validation fails. *)
Definition wasted_round (bot_choice : string) : Res.t :=
  {| Res.winner := "invalid"; Res.user_move := "invalid"; Res.bot_move := bot_choice |}.

Definition run_turn (draw : nat) (user_input : string) : M string :=
  bot_choice <- bot_move draw ;;
  used <- read user_bomb_used ;;
  let validation := validate_move user_input used in
  if negb (Val.valid validation) then
    let result := wasted_round bot_choice in
    update_game_state result ;;;
    generate_referee_response result
  else
    match Val.move validation with
    | Some move =>
        let result := resolve_round move bot_choice in
        update_game_state result ;;;
        generate_referee_response result
    | None =>
        (* A valid result always carries its move ([validate_move_valid]
           below): this branch is never taken. *)
        let result := wasted_round bot_choice in
        update_game_state result ;;;
        generate_referee_response result
    end.

(** ** Main loop

    [main] reads the console and writes to it.  The console is modelled by
    the lines still to be read, each paired with the draw the generator
    makes in the turn that reads it (a turn reads one line and draws once),
    and by the list of the texts written so far.  Three texts of [main] hold
    a character above U+00FF, which a string here cannot hold: the gamepad
    sign of the title, the less-or-equal sign of the rules heading and the
    arrow of the final score are parameters. *)

(** How a run ends: [main] returns, or [input] raises [EOFError] because no
    line is left. *)
Inductive ending : Type := Returned | EOFError.

(** What is left when a run ends: the texts written, the lines not read and
    the globals. *)
Record Run : Type := mkRun {
  run_ending : ending;
  run_stdout : list string;
  run_stdin : list (nat * string);
  run_globals : Globals
}.

(** [s * n] for a string and a count. *)
Fixpoint str_mul (s : string) (n : nat) : string :=
  match n with
  | O => EmptyString
  | S n' => s ++ str_mul s n'
  end.

(** What [print(s)] writes. *)
Definition print (s : string) : string := s ++ newline.

Definition prompt : string := newline ++ " Your move: ".

(** The [while not state.game_over] loop: the test comes first, then [input]
    writes its prompt and reads a line or raises. *)
Fixpoint main_loop (stdin : list (nat * string)) (g : Globals) : Run :=
  if game_over (state g) then
    {| run_ending := Returned; run_stdout := []; run_stdin := stdin;
       run_globals := g |}
  else
    match stdin with
    | [] =>
        {| run_ending := EOFError; run_stdout := [prompt]; run_stdin := [];
           run_globals := g |}
    | (draw, line) :: rest =>
        let move := PyStr.strip line in
        let (explanation, g') := run_turn draw move g in
        let r := main_loop rest g' in
        {| run_ending := run_ending r;
           run_stdout := prompt :: print (newline ++ explanation) :: run_stdout r;
           run_stdin := run_stdin r;
           run_globals := run_globals r |}
    end.

(** The line of the final result. *)
Definition verdict (st : GameState) : string :=
  if bot_score st <? user_score st then " Result: User wins!"
  else if user_score st <? bot_score st then " Result: Bot wins!"
  else " Result: Draw!".

Section Main.

Variables (gamepad_sign le_sign arrow_sign : string).

Definition banner : list string :=
  [ print (str_mul "=" 60);
    print (" ROCK-PAPER-SCISSORS-PLUS REFEREE " ++ gamepad_sign);
    print ("Rules (" ++ le_sign ++ " 5 lines):");
    print "1. Best of 3 rounds";
    print "2. rock, paper, scissors, bomb";
    print "3. Bomb beats all (once per player)";
    print "4. Invalid = wasted round";
    print "5. Auto-end after 3 rounds";
    print (str_mul "=" 60) ].

Definition closing (st : GameState) : list string :=
  [ print (newline ++ " GAME OVER");
    print ("Final Score " ++ arrow_sign ++ " You: " ++ PyStr.of_int (user_score st)
           ++ " | Bot: " ++ PyStr.of_int (bot_score st));
    print (verdict st) ].

Definition main (stdin : list (nat * string)) (g : Globals) : Run :=
  let r := main_loop stdin g in
  match run_ending r with
  | EOFError =>
      {| run_ending := EOFError;
         run_stdout := (banner ++ run_stdout r)%list;
         run_stdin := run_stdin r;
         run_globals := run_globals r |}
  | Returned =>
      {| run_ending := Returned;
         run_stdout :=
           (banner ++ run_stdout r ++ closing (state (run_globals r)))%list;
         run_stdin := run_stdin r;
         run_globals := run_globals r |}
  end.

End Main.

(** * Notions used in the statements *)

(** The main loop calls [run_turn] once per line typed while [game_over]
    is false; [play] runs the turns of a list of (draw, input) pairs without
    that test, as a caller of [run_turn] may. *)
Fixpoint play (turns : list (nat * string)) (g : Globals) : list string * Globals :=
  match turns with
  | [] => ([], g)
  | (draw, user_input) :: rest =>
      let (line, g') := run_turn draw user_input g in
      let (lines, g'') := play rest g' in
      (line :: lines, g'')
  end.

(** Any number of state updates, one per result. *)
Fixpoint updates (results : list Res.t) (g : Globals) : Globals :=
  match results with
  | [] => g
  | r :: rest => updates rest (snd (update_game_state r g))
  end.

(** The three dictionaries [validate_move] can return. *)
Definition invalid_move_result : Val.t :=
  {| Val.valid := false; Val.reason := Some "Invalid move"; Val.move := None |}.

Definition bomb_used_result : Val.t :=
  {| Val.valid := false; Val.reason := Some "Bomb already used"; Val.move := None |}.

Definition valid_result (token : string) : Val.t :=
  {| Val.valid := true; Val.reason := None; Val.move := Some token |}.

(** The token of the specification: trim, then lower-case. *)
Definition normalize (raw_input : string) : string :=
  PyStr.lower (PyStr.strip raw_input).

(** The state [update_game_state] leaves behind, field by field. *)
Definition updated (result : Res.t) (st : GameState) : GameState :=
  {| round := round st + 1;
     user_score :=
       if (Res.winner result =? "user")%string then user_score st + 1
       else user_score st;
     bot_score :=
       if (Res.winner result =? "bot")%string then bot_score st + 1
       else bot_score st;
     user_bomb_used :=
       (Res.user_move result =? "bomb")%string || user_bomb_used st;
     bot_bomb_used :=
       (Res.bot_move result =? "bomb")%string || bot_bomb_used st;
     game_over := (3 <=? round st + 1) || game_over st;
     history := (history st ++ [result])%list |}.

(** The states a game goes through: a fresh [GameState] (whatever the
    flag [API_AVAILABLE] is), then one [update_game_state] per turn. *)
Inductive reachable : Globals -> Prop :=
| reach_fresh (g : Globals) :
    state g = GameState_init -> reachable g
| reach_update (result : Res.t) (g : Globals) :
    reachable g -> reachable (snd (update_game_state result g)).

(** The moves the bot may play, given its flag. *)
Definition candidates (bot_bomb_used : bool) : list string :=
  if bot_bomb_used then ["rock"; "paper"; "scissors"]
  else ["rock"; "paper"; "scissors"; "bomb"].

(** The result [run_turn] builds from the draw, the input and the state it
    starts in. *)
Definition turn_result (draw : nat) (user_input : string) (st : GameState)
  : Res.t :=
  let bot_choice := random_choice draw (candidates (bot_bomb_used st)) in
  let validation := validate_move user_input (user_bomb_used st) in
  match Val.valid validation, Val.move validation with
  | true, Some move => resolve_round move bot_choice
  | _, _ => wasted_round bot_choice
  end.

(** The score line that ends every narration. *)
Definition score_line (st : GameState) : string :=
  "Score: You " ++ PyStr.of_int (user_score st)
  ++ " | Bot " ++ PyStr.of_int (bot_score st).

(** The narration as the text contract words it: the notice for the round's
    winner, a line break, the score line. *)
Definition narrate_spec (outcome : Res.t) (st : GameState) : string :=
  let notice :=
    if (Res.winner outcome =? "invalid")%string then
      "Round " ++ PyStr.of_int (round st) ++ ": Invalid move! Round wasted."
    else if (Res.winner outcome =? "draw")%string then
      "Round " ++ PyStr.of_int (round st) ++ ": Draw! Both played "
      ++ Res.user_move outcome ++ "."
    else if (Res.winner outcome =? "user")%string then
      "Round " ++ PyStr.of_int (round st) ++ ": You win! "
      ++ Res.user_move outcome ++ " beats " ++ Res.bot_move outcome ++ "."
    else
      "Round " ++ PyStr.of_int (round st) ++ ": Bot wins! "
      ++ Res.bot_move outcome ++ " beats " ++ Res.user_move outcome ++ "."
  in
  notice ++ newline ++ score_line st.

(** A computation is blind to [API_AVAILABLE] when two runs from globals
    with the same [state] return the same value and leave the same [state],
    and each run leaves the flag as it found it. *)
Definition flag_blind {A} (m : M A) : Prop :=
  forall g1 g2,
    state g1 = state g2 ->
    fst (m g1) = fst (m g2)
    /\ state (snd (m g1)) = state (snd (m g2))
    /\ API_AVAILABLE (snd (m g1)) = API_AVAILABLE g1
    /\ API_AVAILABLE (snd (m g2)) = API_AVAILABLE g2.

(** A string of white space only. *)
Fixpoint all_space (s : string) : bool :=
  match s with
  | EmptyString => true
  | String c s' => PyStr.isspace c && all_space s'
  end.

(** The number of results of a history that a predicate holds of. *)
Definition count (p : Res.t -> bool) (h : list Res.t) : Z :=
  Z.of_nat (List.length (filter p h)).

Definition won_by (who : string) (r : Res.t) : bool :=
  (Res.winner r =? who)%string.

Definition user_bombed (r : Res.t) : bool := (Res.user_move r =? "bomb")%string.

Definition bot_bombed (r : Res.t) : bool := (Res.bot_move r =? "bomb")%string.

(** A result as a turn can build it: the bot's move is one of the four
    moves, the user's move is one of them or the invalid marker, and the
    result is what [resolve_round] makes of the two. *)
Definition turn_shaped (r : Res.t) : Prop :=
  In (Res.bot_move r) valid_moves
  /\ In (Res.user_move r) ("invalid" :: valid_moves)
  /\ r = resolve_round (Res.user_move r) (Res.bot_move r).

(** The turns the main loop still has to run: none once [round] is 3. *)
Definition rounds_left (st : GameState) : nat := Z.to_nat (3 - round st).

(** What the main loop writes for one turn: the prompt of [input], then the
    narration after an empty line. *)
Definition turn_output (narration : string) : list string :=
  [prompt; print (newline ++ narration)].

(** * Properties *)

(** ** Strings *)

Lemma isspace_lower_char (c : ascii) :
  PyStr.isspace (PyStr.lower_char c) = PyStr.isspace c.
Proof. destruct c as [[] [] [] [] [] [] [] []]; reflexivity. Qed.

Lemma lstrip_lower (s : string) :
  PyStr.lstrip (PyStr.lower s) = PyStr.lower (PyStr.lstrip s).
Proof.
  induction s as [|c s IH]; simpl; [reflexivity|].
  rewrite isspace_lower_char.
  destruct (PyStr.isspace c); [exact IH | reflexivity].
Qed.

Lemma rstrip_lower (s : string) :
  PyStr.rstrip (PyStr.lower s) = PyStr.lower (PyStr.rstrip s).
Proof.
  induction s as [|c s IH]; simpl; [reflexivity|].
  rewrite IH, isspace_lower_char.
  destruct (PyStr.rstrip s); simpl; [|reflexivity].
  destruct (PyStr.isspace c); reflexivity.
Qed.

(** Lower-casing and trimming commute: the source lower-cases first. *)
Lemma strip_lower (s : string) :
  PyStr.strip (PyStr.lower s) = PyStr.lower (PyStr.strip s).
Proof. unfold PyStr.strip. now rewrite lstrip_lower, rstrip_lower. Qed.

Lemma mem_In (x : string) (xs : list string) :
  PyStr.mem x xs = true <-> In x xs.
Proof.
  unfold PyStr.mem. rewrite existsb_exists. split.
  - intros (y & Hy & E). apply String.eqb_eq in E. now subst.
  - intros H. exists x. split; [assumption | apply String.eqb_refl].
Qed.

Lemma mem_not_In (x : string) (xs : list string) :
  PyStr.mem x xs = false <-> ~ In x xs.
Proof.
  rewrite <- mem_In. destruct (PyStr.mem x xs); split; congruence.
Qed.

(** ** Validation *)

(** A valid result carries its move, and an invalid one carries none. *)
Lemma validate_move_valid (user_input : string) (used : bool) :
  Val.valid (validate_move user_input used) = true ->
  exists move, Val.move (validate_move user_input used) = Some move
               /\ In move valid_moves
               /\ (move = "bomb" -> used = false).
Proof.
  unfold validate_move.
  destruct (PyStr.mem _ valid_moves) eqn:Hm; cbn [negb]; [|discriminate].
  apply mem_In in Hm.
  destruct (String.eqb_spec (PyStr.strip (PyStr.lower user_input)) "bomb") as [E|E];
    destruct used; cbn [andb Val.valid Val.move]; try discriminate; intros _;
    eexists; (split; [reflexivity|]); (split; [exact Hm|]);
    congruence.
Qed.

(** C6. For every input string and flag, [validate_move] works on the input
    trimmed and lower-cased: a token outside rock, paper, scissors, bomb
    gives the "Invalid move" result; the token bomb with the bomb already
    used gives the "Bomb already used" result; every other case gives the
    valid result carrying the token.  The function is total, so one of the
    three results is always returned. *)
Theorem validate_move_contract (raw_input : string) (bomb_already_used : bool) :
  let token := normalize raw_input in
  (~ In token valid_moves ->
     validate_move raw_input bomb_already_used = invalid_move_result)
  /\ (token = "bomb" -> bomb_already_used = true ->
     validate_move raw_input bomb_already_used = bomb_used_result)
  /\ (In token valid_moves -> ~ (token = "bomb" /\ bomb_already_used = true) ->
     validate_move raw_input bomb_already_used = valid_result token)
  /\ (validate_move raw_input bomb_already_used = invalid_move_result
      \/ validate_move raw_input bomb_already_used = bomb_used_result
      \/ validate_move raw_input bomb_already_used = valid_result token).
Proof.
  unfold normalize, validate_move. rewrite strip_lower.
  set (token := PyStr.lower (PyStr.strip raw_input)). cbv zeta.
  destruct (PyStr.mem token valid_moves) eqn:Hm; cbn [negb].
  - apply mem_In in Hm.
    destruct (String.eqb_spec token "bomb") as [E|E];
      destruct bomb_already_used; cbn [andb];
      (split; [tauto|]);
      (split; [intros; first [reflexivity | congruence]|]);
      (split; [intros; first [reflexivity | exfalso; tauto]|]);
      first [right; right; reflexivity | right; left; reflexivity].
  - apply mem_not_In in Hm.
    split; [reflexivity|].
    split; [intros E _; exfalso; apply Hm; rewrite E; simpl; tauto|].
    split; [tauto | left; reflexivity].
Qed.

Lemma validate_move_contract_witness :
  validate_move "  ROCK  " false = valid_result "rock"
  /\ validate_move " Bomb" true = bomb_used_result
  /\ validate_move "lizard" false = invalid_move_result.
Proof.
  split; [|split].
  - apply (proj1 (proj2 (proj2 (validate_move_contract "  ROCK  " false)))).
    + simpl. tauto.
    + intros [H _]. discriminate H.
  - apply (proj1 (proj2 (validate_move_contract " Bomb" true))); reflexivity.
  - apply (proj1 (validate_move_contract "lizard" false)).
    simpl. intros [H|[H|[H|[H|[]]]]]; discriminate H.
Defined.

(** ** Round resolution *)

Lemma resolve_round_moves (user_move bot_move : string) :
  Res.user_move (resolve_round user_move bot_move) = user_move
  /\ Res.bot_move (resolve_round user_move bot_move) = bot_move.
Proof.
  unfold resolve_round.
  repeat match goal with
    | |- context [if ?b then _ else _] => destruct b
    end; split; reflexivity.
Qed.

(** The winner is "invalid" exactly when the user's move is. *)
Lemma resolve_round_invalid_iff (user_move bot_move : string) :
  Res.winner (resolve_round user_move bot_move) = "invalid"
  <-> user_move = "invalid".
Proof.
  unfold resolve_round.
  destruct (String.eqb_spec user_move "invalid") as [E|E]; simpl; [tauto|].
  repeat match goal with
    | |- context [if ?b then _ else _] => destruct b
    end; simpl; split; intros H; try discriminate H; contradiction.
Qed.

(** C1. The bomb beats every other bot move; every user move other than the
    bomb (and the invalid marker) loses to the bot's bomb, in particular
    rock, paper and scissors; the invalid marker gives winner "invalid"
    against every bot move, before any other rule is tried; bomb against
    bomb is a draw. *)
Theorem resolve_round_bomb_and_invalid :
  (forall x, x <> "bomb" -> Res.winner (resolve_round "bomb" x) = "user")
  /\ (forall x, x <> "bomb" -> x <> "invalid" ->
        Res.winner (resolve_round x "bomb") = "bot")
  /\ (forall x, In x ["rock"; "paper"; "scissors"] ->
        Res.winner (resolve_round x "bomb") = "bot")
  /\ (forall b, Res.winner (resolve_round "invalid" b) = "invalid")
  /\ Res.winner (resolve_round "bomb" "bomb") = "draw".
Proof.
  repeat split.
  - intros x Hx. unfold resolve_round.
    replace ("bomb" =? "invalid")%string with false by reflexivity.
    destruct (String.eqb_spec "bomb" x) as [E|E]; [congruence | reflexivity].
  - intros x Hb Hi. unfold resolve_round.
    destruct (String.eqb_spec x "invalid") as [E|E]; [contradiction|].
    destruct (String.eqb_spec x "bomb") as [E'|E']; [contradiction|].
    reflexivity.
  - intros x [H|[H|[H|[]]]]; subst x; reflexivity.
Qed.

Lemma resolve_round_bomb_and_invalid_witness :
  Res.winner (resolve_round "bomb" "paper") = "user"
  /\ Res.winner (resolve_round "scissors" "bomb") = "bot".
Proof.
  split.
  - apply (proj1 resolve_round_bomb_and_invalid). discriminate.
  - apply (proj1 (proj2 resolve_round_bomb_and_invalid)); discriminate.
Defined.

(** C2. Equal moves draw (for rock, paper, scissors and bomb, and for every
    other string but the invalid marker); rock beats scissors, paper beats
    rock and scissors beat paper for the user, and the reversed pairs go to
    the bot; the result records the two moves it was given. *)
Theorem resolve_round_draw_and_cycle :
  (forall m, In m valid_moves -> Res.winner (resolve_round m m) = "draw")
  /\ (forall m, m <> "invalid" -> Res.winner (resolve_round m m) = "draw")
  /\ Res.winner (resolve_round "rock" "scissors") = "user"
  /\ Res.winner (resolve_round "paper" "rock") = "user"
  /\ Res.winner (resolve_round "scissors" "paper") = "user"
  /\ Res.winner (resolve_round "scissors" "rock") = "bot"
  /\ Res.winner (resolve_round "rock" "paper") = "bot"
  /\ Res.winner (resolve_round "paper" "scissors") = "bot"
  /\ (forall u b, Res.user_move (resolve_round u b) = u
                  /\ Res.bot_move (resolve_round u b) = b).
Proof.
  assert (D : forall m, m <> "invalid" -> Res.winner (resolve_round m m) = "draw").
  { intros m Hm. unfold resolve_round.
    destruct (String.eqb_spec m "invalid") as [E|E]; [contradiction|].
    now rewrite String.eqb_refl. }
  split; [|split; [exact D|]].
  - intros m [H|[H|[H|[H|[]]]]]; subst m; reflexivity.
  - repeat (split; [reflexivity|]). exact resolve_round_moves.
Qed.

Lemma resolve_round_draw_and_cycle_witness :
  Res.winner (resolve_round "bomb" "bomb") = "draw"
  /\ Res.winner (resolve_round "lizard" "lizard") = "draw".
Proof.
  split.
  - apply (proj1 resolve_round_draw_and_cycle). simpl. tauto.
  - apply (proj1 (proj2 resolve_round_draw_and_cycle)). discriminate.
Defined.

(** ** State update *)

Lemma update_game_state_updated (result : Res.t) (g : Globals) :
  update_game_state result g
  = (to_dict (updated result (state g)),
     {| API_AVAILABLE := API_AVAILABLE g; state := updated result (state g) |}).
Proof.
  destruct g as [api [r us bs ub bb go h]], result as [w um bm].
  unfold update_game_state, updated, bind, when, assign, read, ret; simpl.
  destruct (String.eqb_spec w "user") as [E|E];
    [subst w; simpl|
     destruct (String.eqb_spec w "bot") as [E'|E']; simpl];
  destruct (um =? "bomb")%string, (bm =? "bomb")%string; simpl;
  destruct (3 <=? r + 1); simpl; reflexivity.
Qed.

Lemma state_update_game_state (result : Res.t) (g : Globals) :
  state (snd (update_game_state result g)) = updated result (state g).
Proof. now rewrite update_game_state_updated. Qed.

(** C3. One call of [update_game_state], on any result and any state, adds
    exactly 1 to [round] (whatever the winner, "invalid" included); sets a
    bomb flag when the matching move of the result is the bomb, whoever won,
    and leaves it alone otherwise; adds exactly 1 to [user_score] when the
    winner is "user", to [bot_score] when it is "bot", and to neither for any
    other winner ("draw" and "invalid" among them); appends the result to
    [history]; and returns the dictionary of the state it leaves. *)
Theorem update_game_state_effect (result : Res.t) (g : Globals) :
  let st := state g in
  let st' := state (snd (update_game_state result g)) in
  round st' = round st + 1
  /\ (Res.user_move result = "bomb" -> user_bomb_used st' = true)
  /\ (Res.user_move result <> "bomb" -> user_bomb_used st' = user_bomb_used st)
  /\ (Res.bot_move result = "bomb" -> bot_bomb_used st' = true)
  /\ (Res.bot_move result <> "bomb" -> bot_bomb_used st' = bot_bomb_used st)
  /\ (Res.winner result = "user" ->
        user_score st' = user_score st + 1 /\ bot_score st' = bot_score st)
  /\ (Res.winner result = "bot" ->
        bot_score st' = bot_score st + 1 /\ user_score st' = user_score st)
  /\ (Res.winner result <> "user" -> Res.winner result <> "bot" ->
        user_score st' = user_score st /\ bot_score st' = bot_score st)
  /\ history st' = (history st ++ [result])%list
  /\ fst (update_game_state result g) = to_dict st'.
Proof.
  cbv zeta. rewrite update_game_state_updated. cbn [fst snd state].
  unfold updated; cbn [round user_score bot_score user_bomb_used
                       bot_bomb_used history].
  destruct (String.eqb_spec (Res.user_move result) "bomb") as [Eu|Eu];
  destruct (String.eqb_spec (Res.bot_move result) "bomb") as [Eb|Eb];
  destruct (String.eqb_spec (Res.winner result) "user") as [Ew|Ew];
  destruct (String.eqb_spec (Res.winner result) "bot") as [Ew'|Ew'];
  cbn [orb];
  repeat split; intros; try reflexivity; try contradiction; try congruence.
Qed.

Lemma update_game_state_effect_witness :
  let g := module_init None false in
  let st' := state (snd (update_game_state (resolve_round "bomb" "rock") g)) in
  user_bomb_used st' = true
  /\ bot_bomb_used st' = false
  /\ user_score st' = 1 /\ bot_score st' = 0.
Proof.
  cbv zeta.
  pose proof (update_game_state_effect (resolve_round "bomb" "rock")
                (module_init None false)) as H.
  cbv zeta in H.
  destruct H as (_ & Hu & _ & _ & Hb & Hw & _).
  split; [apply Hu; reflexivity|].
  split; [rewrite Hb; [reflexivity | discriminate]|].
  destruct (Hw eq_refl) as [H1 H2]. split; [rewrite H1 | rewrite H2]; reflexivity.
Defined.

(** ** Reachable states *)

Lemma updates_app (rs1 rs2 : list Res.t) (g : Globals) :
  updates (rs1 ++ rs2) g = updates rs2 (updates rs1 g).
Proof. revert g. induction rs1 as [|r rs1 IH]; intros g; simpl; auto. Qed.

Lemma reachable_updates (results : list Res.t) (g : Globals) :
  reachable g -> reachable (updates results g).
Proof.
  revert g. induction results as [|r rs IH]; intros g Hg; simpl; [assumption|].
  apply IH. now constructor.
Qed.

Lemma user_bomb_used_updates (results : list Res.t) (g : Globals) :
  user_bomb_used (state g) = true ->
  user_bomb_used (state (updates results g)) = true.
Proof.
  revert g. induction results as [|r rs IH]; intros g H; simpl; [assumption|].
  apply IH. rewrite state_update_game_state. simpl. rewrite H.
  apply orb_true_r.
Qed.

Lemma bot_bomb_used_updates (results : list Res.t) (g : Globals) :
  bot_bomb_used (state g) = true ->
  bot_bomb_used (state (updates results g)) = true.
Proof.
  revert g. induction results as [|r rs IH]; intros g H; simpl; [assumption|].
  apply IH. rewrite state_update_game_state. simpl. rewrite H.
  apply orb_true_r.
Qed.

Lemma game_over_updates (results : list Res.t) (g : Globals) :
  game_over (state g) = true ->
  game_over (state (updates results g)) = true.
Proof.
  revert g. induction results as [|r rs IH]; intros g H; simpl; [assumption|].
  apply IH. rewrite state_update_game_state. simpl. rewrite H.
  apply orb_true_r.
Qed.

(** C4. In every state reachable from a fresh [GameState], [round] is the
    length of [history] and the two scores add up to at most [round]; and a
    bomb flag that is true stays true under any further updates. *)
Theorem reachable_invariant (g : Globals) :
  reachable g ->
  round (state g) = Z.of_nat (List.length (history (state g)))
  /\ user_score (state g) + bot_score (state g) <= round (state g)
  /\ (forall results,
        user_bomb_used (state g) = true ->
        user_bomb_used (state (updates results g)) = true)
  /\ (forall results,
        bot_bomb_used (state g) = true ->
        bot_bomb_used (state (updates results g)) = true).
Proof.
  intros Hg.
  assert (I : round (state g) = Z.of_nat (List.length (history (state g)))
              /\ 0 <= user_score (state g)
              /\ 0 <= bot_score (state g)
              /\ user_score (state g) + bot_score (state g) <= round (state g)).
  { induction Hg as [g H | r g _ (IH1 & IH2 & IH3 & IH4)].
    - rewrite H. simpl. lia.
    - rewrite state_update_game_state. unfold updated.
      cbn [round user_score bot_score history].
      rewrite length_app, Nat2Z.inj_add. cbn [List.length].
      destruct (String.eqb_spec (Res.winner r) "user") as [E|E];
        destruct (String.eqb_spec (Res.winner r) "bot") as [E'|E'];
        try lia.
      rewrite E in E'. discriminate E'. }
  destruct I as (I1 & _ & _ & I4).
  repeat split; auto using user_bomb_used_updates, bot_bomb_used_updates.
Qed.

Lemma reachable_invariant_witness :
  let g := updates [resolve_round "bomb" "rock"; wasted_round "bomb"]
             (module_init None false) in
  round (state g) = Z.of_nat (List.length (history (state g)))
  /\ user_score (state g) + bot_score (state g) <= round (state g)
  /\ (forall results,
        user_bomb_used (state g) = true ->
        user_bomb_used (state (updates results g)) = true)
  /\ (forall results,
        bot_bomb_used (state g) = true ->
        bot_bomb_used (state (updates results g)) = true).
Proof.
  cbv zeta. apply reachable_invariant.
  apply reachable_updates, reach_fresh. reflexivity.
Defined.

(** C5. In every state reachable from a fresh [GameState], [game_over] is
    true exactly when [round >= 3]; three updates of a fresh state, with any
    results, leave [game_over] true; and once true, [game_over] stays true
    under any further updates. *)
Theorem game_over_iff_round (g : Globals) :
  reachable g ->
  (game_over (state g) = true <-> 3 <= round (state g))
  /\ (forall r1 r2 r3,
        state g = GameState_init ->
        game_over (state (updates [r1; r2; r3] g)) = true)
  /\ (forall results,
        game_over (state g) = true ->
        game_over (state (updates results g)) = true).
Proof.
  intros Hg. split; [|split].
  - assert (I : 0 <= round (state g)
                /\ game_over (state g) = (3 <=? round (state g))).
    { induction Hg as [g H | r g _ [IH1 IH2]].
      - rewrite H. simpl. split; [lia | reflexivity].
      - rewrite state_update_game_state. unfold updated.
        cbn [round game_over]. split; [lia|]. rewrite IH2.
        destruct (Z.leb_spec 3 (round (state g) + 1)),
                 (Z.leb_spec 3 (round (state g))); simpl; try reflexivity; lia. }
    destruct I as [_ I]. rewrite I. apply Z.leb_le.
  - intros r1 r2 r3 H. simpl. rewrite !state_update_game_state, H. reflexivity.
  - intros results. apply game_over_updates.
Qed.

Lemma game_over_iff_round_witness :
  let g := updates [resolve_round "rock" "rock"; wasted_round "paper"]
             (module_init None false) in
  game_over (state g) = false
  /\ game_over (state (updates [resolve_round "paper" "rock"] g)) = true.
Proof.
  cbv zeta.
  set (g := updates [resolve_round "rock" "rock"; wasted_round "paper"]
              (module_init None false)).
  assert (Hg : reachable g)
    by (apply reachable_updates, reach_fresh; reflexivity).
  split.
  - destruct (game_over (state g)) eqn:E; [|reflexivity].
    apply (proj1 (game_over_iff_round g Hg)) in E. vm_compute in E.
    exfalso. apply E. reflexivity.
  - assert (Hg' : reachable (updates [resolve_round "paper" "rock"] g))
      by (apply reachable_updates; exact Hg).
    apply (proj1 (game_over_iff_round _ Hg')). vm_compute. discriminate.
Defined.

(** ** Bot strategy *)

Lemma random_choice_In (draw : nat) (seq : list string) :
  seq <> [] -> In (random_choice draw seq) seq.
Proof.
  intros H. unfold random_choice. apply nth_In.
  apply Nat.mod_upper_bound. destruct seq; [contradiction | discriminate].
Qed.

Lemma random_choice_nth (i : nat) (seq : list string) :
  (i < List.length seq)%nat -> random_choice i seq = nth i seq "".
Proof. intros H. unfold random_choice. now rewrite Nat.mod_small. Qed.

Lemma bot_move_eq (draw : nat) (g : Globals) :
  bot_move draw g
  = (random_choice draw (candidates (bot_bomb_used (state g))), g).
Proof.
  unfold bot_move, bind, read, ret, candidates.
  destruct (bot_bomb_used (state g)); reflexivity.
Qed.

(** C8. Whatever the generator draws, [bot_move] returns rock, paper or
    scissors when [bot_bomb_used] is true and one of rock, paper, scissors,
    bomb when it is false: never the invalid marker, and never the bomb once
    the bot's bomb is used.  It leaves the state as it is, and each of the
    moves allowed is returned for some draw. *)
Theorem bot_move_in_candidates (draw : nat) (g : Globals) :
  let m := fst (bot_move draw g) in
  (bot_bomb_used (state g) = true -> In m ["rock"; "paper"; "scissors"])
  /\ (bot_bomb_used (state g) = false -> In m ["rock"; "paper"; "scissors"; "bomb"])
  /\ m <> "invalid"
  /\ (bot_bomb_used (state g) = true -> m <> "bomb")
  /\ snd (bot_move draw g) = g
  /\ (forall c, In c (candidates (bot_bomb_used (state g))) ->
        exists draw', fst (bot_move draw' g) = c).
Proof.
  cbv zeta. rewrite bot_move_eq. cbn [fst snd].
  assert (H : In (random_choice draw (candidates (bot_bomb_used (state g))))
                (candidates (bot_bomb_used (state g)))).
  { apply random_choice_In. destruct (bot_bomb_used (state g)); discriminate. }
  revert H. generalize (random_choice draw (candidates (bot_bomb_used (state g)))).
  intros m Hm.
  split; [intros E; now rewrite E in Hm|].
  split; [intros E; now rewrite E in Hm|].
  split.
  { destruct (bot_bomb_used (state g)); simpl in Hm; intros ->;
      repeat (destruct Hm as [Hm|Hm]; [discriminate Hm|]); exact Hm. }
  split.
  { intros E. rewrite E in Hm. simpl in Hm. intros ->.
    repeat (destruct Hm as [Hm|Hm]; [discriminate Hm|]); exact Hm. }
  split; [reflexivity|].
  intros c Hc. apply (In_nth _ _ "") in Hc. destruct Hc as (i & Hi & <-).
  exists i. rewrite bot_move_eq. cbn [fst]. now apply random_choice_nth.
Qed.

Lemma bot_move_in_candidates_witness :
  let g := snd (update_game_state (resolve_round "rock" "bomb")
                  (module_init None false)) in
  In (fst (bot_move 7 g)) ["rock"; "paper"; "scissors"]
  /\ fst (bot_move 7 g) <> "bomb".
Proof.
  cbv zeta. split.
  - apply (proj1 (bot_move_in_candidates 7 _)). reflexivity.
  - apply (proj1 (proj2 (proj2 (proj2 (bot_move_in_candidates 7 _))))).
    reflexivity.
Defined.

(** ** The turn *)

(** [run_turn] updates the state with that result and then narrates it from
    the updated state. *)
Lemma run_turn_eq (draw : nat) (user_input : string) (g : Globals) :
  let result := turn_result draw user_input (state g) in
  run_turn draw user_input g
  = generate_referee_response result (snd (update_game_state result g)).
Proof.
  cbv zeta. unfold run_turn, turn_result.
  unfold bind at 1. rewrite bot_move_eq.
  unfold bind at 1. unfold read at 1.
  destruct (Val.valid (validate_move user_input (user_bomb_used (state g))));
    cbn [negb].
  - destruct (Val.move (validate_move user_input (user_bomb_used (state g))));
      unfold bind at 1;
      match goal with
      | |- context [update_game_state ?r g] =>
          destruct (update_game_state r g); reflexivity
      end.
  - unfold bind at 1.
    match goal with
    | |- context [update_game_state ?r g] =>
        destruct (update_game_state r g); reflexivity
    end.
Qed.

(** The results of a turn name the invalid marker as winner exactly when it
    is the user's move. *)
Lemma turn_result_invalid_iff (draw : nat) (user_input : string) (st : GameState) :
  Res.winner (turn_result draw user_input st) = "invalid"
  <-> Res.user_move (turn_result draw user_input st) = "invalid".
Proof.
  unfold turn_result. cbv zeta.
  destruct (Val.valid (validate_move user_input (user_bomb_used st))),
           (Val.move (validate_move user_input (user_bomb_used st)));
    try (simpl; tauto).
  rewrite resolve_round_invalid_iff.
  now rewrite (proj1 (resolve_round_moves _ _)).
Qed.

Lemma run_turn_reachable (draw : nat) (user_input : string) (g : Globals) :
  reachable g -> reachable (snd (run_turn draw user_input g)).
Proof.
  intros H. rewrite run_turn_eq.
  unfold generate_referee_response, bind, read, ret.
  repeat match goal with
    | |- context [if ?b then _ else _] => destruct b
    end; cbn [snd]; now constructor.
Qed.

(** ** Narration *)

Lemma append_assoc (a b c : string) : (a ++ b) ++ c = a ++ (b ++ c).
Proof. induction a as [|x a IH]; simpl; [reflexivity | now rewrite IH]. Qed.

(** The bot-win branch writes the contract's text as it is. *)
Lemma bot_win_text (outcome : Res.t) (g : Globals) :
  Res.user_move outcome <> "invalid" ->
  Res.winner outcome = "bot" ->
  fst (generate_referee_response outcome g) = narrate_spec outcome (state g).
Proof.
  destruct outcome as [w um bm]. cbn [Res.winner Res.user_move].
  intros Hu ->.
  unfold generate_referee_response, bind, read, ret, narrate_spec, score_line.
  cbn [Res.winner Res.user_move Res.bot_move fst].
  destruct (String.eqb_spec um "invalid") as [E|E]; [contradiction|].
  cbn [String.eqb Ascii.eqb Bool.eqb]. now rewrite !append_assoc.
Qed.

(** C7. The narration is not the contract's text in three of its four
    shapes: for a user win, a draw and an invalid round the source writes a
    space in front of "Round", which the contract's text does not have,
    while the bot-win branch beside them writes the contract's text as it
    is.  In the first scenario (a fresh state, rock against scissors) the
    narration is the contract's text with one space in front, and so is not
    that text; the same holds of a draw and of a wasted round; and for every
    bot win, in every state, the narration is the contract's text. *)
Theorem narration_leading_space :
  (let outcome := resolve_round "rock" "scissors" in
   let g := snd (update_game_state outcome (module_init None false)) in
   fst (generate_referee_response outcome g)
   = " Round 1: You win! rock beats scissors." ++ newline ++ "Score: You 1 | Bot 0"
   /\ narrate_spec outcome (state g)
      = "Round 1: You win! rock beats scissors." ++ newline ++ "Score: You 1 | Bot 0"
   /\ fst (generate_referee_response outcome g) <> narrate_spec outcome (state g))
  /\ (let outcome := resolve_round "paper" "paper" in
      let g := snd (update_game_state outcome (module_init None false)) in
      fst (generate_referee_response outcome g)
      = " " ++ narrate_spec outcome (state g)
      /\ fst (generate_referee_response outcome g) <> narrate_spec outcome (state g))
  /\ (let outcome := wasted_round "rock" in
      let g := snd (update_game_state outcome (module_init None false)) in
      fst (generate_referee_response outcome g)
      = " " ++ narrate_spec outcome (state g)
      /\ fst (generate_referee_response outcome g) <> narrate_spec outcome (state g))
  /\ (forall outcome g,
        Res.user_move outcome <> "invalid" ->
        Res.winner outcome = "bot" ->
        fst (generate_referee_response outcome g)
        = narrate_spec outcome (state g)).
Proof.
  cbv zeta.
  split; [split; [reflexivity | split; [reflexivity | vm_compute; discriminate]]|].
  split; [split; [reflexivity | vm_compute; discriminate]|].
  split; [split; [reflexivity | vm_compute; discriminate]|].
  exact bot_win_text.
Qed.

Lemma narration_leading_space_witness :
  let outcome := resolve_round "scissors" "rock" in
  let g := snd (update_game_state outcome (module_init None false)) in
  fst (generate_referee_response outcome g)
  = "Round 1: Bot wins! rock beats scissors." ++ newline ++ "Score: You 0 | Bot 1".
Proof.
  cbv zeta.
  rewrite (proj2 (proj2 (proj2 narration_leading_space))
             (resolve_round "scissors" "rock")).
  - reflexivity.
  - discriminate.
  - reflexivity.
Defined.

(** The first end-to-end scenario: a fresh state, the input rock, the bot
    drawing scissors. *)
Example scenario1 :
  run_turn 2 "rock" (module_init None false)
  = (" Round 1: You win! rock beats scissors." ++ newline ++ "Score: You 1 | Bot 0",
     {| API_AVAILABLE := false;
        state := {| round := 1; user_score := 1; bot_score := 0;
                    user_bomb_used := false; bot_bomb_used := false;
                    game_over := false;
                    history := [resolve_round "rock" "scissors"] |} |}).
Proof. reflexivity. Qed.

Lemma generate_referee_response_snd (result : Res.t) (g : Globals) :
  snd (generate_referee_response result g) = g.
Proof.
  unfold generate_referee_response, bind, read, ret.
  destruct (Res.user_move result =? "invalid")%string; reflexivity.
Qed.

Lemma state_run_turn (draw : nat) (user_input : string) (g : Globals) :
  state (snd (run_turn draw user_input g))
  = updated (turn_result draw user_input (state g)) (state g).
Proof.
  rewrite run_turn_eq, generate_referee_response_snd.
  apply state_update_game_state.
Qed.

Lemma play_reachable (turns : list (nat * string)) (g : Globals) :
  reachable g -> reachable (snd (play turns g)).
Proof.
  revert g. induction turns as [|[draw user_input] rest IH]; intros g H;
    cbn [play]; [assumption|].
  pose proof (run_turn_reachable draw user_input g H) as H'.
  destruct (run_turn draw user_input g) as [line g']. cbn [snd] in H'.
  specialize (IH g' H'). destruct (play rest g') as [lines g''].
  exact IH.
Qed.

(** ** Post-terminal turns *)

(** C10. [run_turn] has no guard on [game_over]: called with [game_over]
    true it still adds exactly 1 to [round] (so a round of 3 or more grows
    past 3), still appends the turn's result to [history], and leaves
    [game_over] true; and the scores can still change: after three draws,
    a fourth turn gives the user a point. *)
Theorem run_turn_after_game_over :
  (forall draw user_input g,
     game_over (state g) = true ->
     let st' := state (snd (run_turn draw user_input g)) in
     round st' = round (state g) + 1
     /\ (3 <= round (state g) -> 3 < round st')
     /\ history st'
        = (history (state g) ++ [turn_result draw user_input (state g)])%list
     /\ game_over st' = true)
  /\ (exists g draw user_input,
        reachable g
        /\ game_over (state g) = true
        /\ round (state g) = 3
        /\ round (state (snd (run_turn draw user_input g))) = 4
        /\ user_score (state (snd (run_turn draw user_input g)))
           = user_score (state g) + 1).
Proof.
  split.
  - intros draw user_input g H. cbv zeta. rewrite state_run_turn.
    unfold updated. cbn [round history game_over]. rewrite H.
    repeat split; [lia | apply orb_true_r].
  - exists (snd (play [(0, "rock"); (0, "rock"); (0, "rock")]%nat
                   (module_init None false))), 2%nat, "rock".
    split; [|repeat split].
    apply play_reachable, reach_fresh. reflexivity.
Qed.

Lemma run_turn_after_game_over_witness :
  let g := snd (play [(0, "rock"); (1, "paper"); (2, "rock")]%nat
                  (module_init None false)) in
  round (state g) = 3
  /\ round (state (snd (run_turn 0 "rock" g))) = 4
  /\ game_over (state (snd (run_turn 0 "rock" g))) = true.
Proof.
  cbv zeta.
  set (g := snd (play [(0, "rock"); (1, "paper"); (2, "rock")]%nat
                   (module_init None false))).
  assert (H : game_over (state g) = true) by reflexivity.
  destruct (proj1 run_turn_after_game_over 0%nat "rock" g H) as (H1 & _ & _ & H4).
  split; [reflexivity|]. split; [rewrite H1; reflexivity | exact H4].
Defined.

(** ** Independence from the credential *)

Create HintDb blind.

Lemma flag_blind_ret {A} (a : A) : flag_blind (ret a).
Proof. intros g1 g2 H. unfold ret. simpl. auto. Qed.

Lemma flag_blind_read {A} (field : GameState -> A) : flag_blind (read field).
Proof. intros g1 g2 H. unfold read. simpl. rewrite H. auto. Qed.

Lemma flag_blind_assign (f : GameState -> GameState) : flag_blind (assign f).
Proof. intros g1 g2 H. unfold assign. simpl. rewrite H. auto. Qed.

Lemma flag_blind_bind {A B} (m : M A) (k : A -> M B) :
  flag_blind m -> (forall a, flag_blind (k a)) -> flag_blind (bind m k).
Proof.
  intros Hm Hk g1 g2 H. unfold bind.
  destruct (Hm g1 g2 H) as (E1 & E2 & E3 & E4).
  destruct (m g1) as [a1 g1'], (m g2) as [a2 g2']. simpl in *. subst a2.
  destruct (Hk a1 g1' g2' E2) as (F1 & F2 & F3 & F4).
  repeat split; congruence.
Qed.

Lemma flag_blind_when (b : bool) (m : M unit) :
  flag_blind m -> flag_blind (when b m).
Proof. intros H. destruct b; simpl; [assumption | apply flag_blind_ret]. Qed.

Lemma flag_blind_if {A} (b : bool) (m1 m2 : M A) :
  flag_blind m1 -> flag_blind m2 -> flag_blind (if b then m1 else m2).
Proof. destruct b; auto. Qed.

#[local] Hint Resolve flag_blind_ret flag_blind_read flag_blind_assign
  flag_blind_when flag_blind_if : blind.
#[local] Hint Extern 2 (flag_blind (bind _ _)) =>
  apply flag_blind_bind; [|intros ?] : blind.

Lemma flag_blind_update_game_state (result : Res.t) :
  flag_blind (update_game_state result).
Proof. unfold update_game_state. auto 20 with blind. Qed.

Lemma flag_blind_bot_move (draw : nat) : flag_blind (bot_move draw).
Proof. unfold bot_move. auto with blind. Qed.

Lemma flag_blind_generate_referee_response (result : Res.t) :
  flag_blind (generate_referee_response result).
Proof. unfold generate_referee_response. auto 10 with blind. Qed.

#[local] Hint Resolve flag_blind_update_game_state flag_blind_bot_move
  flag_blind_generate_referee_response : blind.

Lemma flag_blind_run_turn (draw : nat) (user_input : string) :
  flag_blind (run_turn draw user_input).
Proof.
  unfold run_turn.
  apply flag_blind_bind; [auto with blind | intros bot_choice].
  apply flag_blind_bind; [auto with blind | intros used].
  cbv zeta. apply flag_blind_if; [auto with blind|].
  destruct (Val.move (validate_move user_input used)); auto with blind.
Qed.

Lemma play_blind (turns : list (nat * string)) (g1 g2 : Globals) :
  state g1 = state g2 ->
  fst (play turns g1) = fst (play turns g2)
  /\ state (snd (play turns g1)) = state (snd (play turns g2))
  /\ API_AVAILABLE (snd (play turns g1)) = API_AVAILABLE g1
  /\ API_AVAILABLE (snd (play turns g2)) = API_AVAILABLE g2.
Proof.
  revert g1 g2. induction turns as [|[draw user_input] rest IH]; intros g1 g2 H.
  - simpl. auto.
  - simpl.
    destruct (flag_blind_run_turn draw user_input g1 g2 H) as (E1 & E2 & E3 & E4).
    destruct (run_turn draw user_input g1) as [l1 g1'],
             (run_turn draw user_input g2) as [l2 g2']. simpl in *.
    destruct (IH g1' g2' E2) as (F1 & F2 & F3 & F4).
    destruct (play rest g1') as [ls1 g1''], (play rest g2') as [ls2 g2''].
    simpl in *. repeat split; congruence.
Qed.

(** C9. Two runs that differ only in [API_AVAILABLE] (the credential
    present or not when the module was loaded) start from the same fresh
    state, and from any two globals with the same state the functions that
    touch the globals ([update_game_state], [bot_move],
    [generate_referee_response], [run_turn], and any sequence of turns)
    return the same values and leave the same state, the flag untouched;
    [validate_move] and [resolve_round] take their arguments only and no
    global at all. *)
Theorem core_ignores_credential (g1 g2 : Globals) :
  state g1 = state g2 ->
  (forall result,
     fst (update_game_state result g1) = fst (update_game_state result g2)
     /\ state (snd (update_game_state result g1))
        = state (snd (update_game_state result g2)))
  /\ (forall draw, fst (bot_move draw g1) = fst (bot_move draw g2))
  /\ (forall result,
        fst (generate_referee_response result g1)
        = fst (generate_referee_response result g2))
  /\ (forall draw user_input,
        fst (run_turn draw user_input g1) = fst (run_turn draw user_input g2)
        /\ state (snd (run_turn draw user_input g1))
           = state (snd (run_turn draw user_input g2))
        /\ API_AVAILABLE (snd (run_turn draw user_input g1)) = API_AVAILABLE g1
        /\ API_AVAILABLE (snd (run_turn draw user_input g2)) = API_AVAILABLE g2)
  /\ (forall turns,
        fst (play turns g1) = fst (play turns g2)
        /\ state (snd (play turns g1)) = state (snd (play turns g2)))
  /\ (forall key1 key2 ok1 ok2,
        state (module_init key1 ok1) = state (module_init key2 ok2)).
Proof.
  intros H.
  split; [intros result; split;
          apply (flag_blind_update_game_state result g1 g2 H)|].
  split; [intros draw; apply (flag_blind_bot_move draw g1 g2 H)|].
  split; [intros result;
          apply (flag_blind_generate_referee_response result g1 g2 H)|].
  split; [intros draw user_input;
          apply (flag_blind_run_turn draw user_input g1 g2 H)|].
  split; [intros turns; split; apply (play_blind turns g1 g2 H)|].
  reflexivity.
Qed.

Lemma core_ignores_credential_witness :
  API_AVAILABLE (module_init (Some "secret") true) = true
  /\ API_AVAILABLE (module_init None false) = false
  /\ fst (play [(3, "Bomb"); (1, "bomb"); (0, " rock ")]%nat
            (module_init (Some "secret") true))
     = fst (play [(3, "Bomb"); (1, "bomb"); (0, " rock ")]%nat
              (module_init None false)).
Proof.
  split; [reflexivity|]. split; [reflexivity|].
  apply (core_ignores_credential (module_init (Some "secret") true)
           (module_init None false)).
  reflexivity.
Defined.

(** * Further properties *)

(** ** Normalisation of the input *)

Lemma lower_char_idem (c : ascii) :
  PyStr.lower_char (PyStr.lower_char c) = PyStr.lower_char c.
Proof. destruct c as [[] [] [] [] [] [] [] []]; reflexivity. Qed.

Lemma lower_idem (s : string) : PyStr.lower (PyStr.lower s) = PyStr.lower s.
Proof.
  induction s as [|c s IH]; simpl; [reflexivity|].
  now rewrite lower_char_idem, IH.
Qed.

Lemma lower_app (a b : string) :
  PyStr.lower (a ++ b) = PyStr.lower a ++ PyStr.lower b.
Proof. induction a as [|c a IH]; simpl; [reflexivity | now rewrite IH]. Qed.

Lemma rstrip_idem (s : string) : PyStr.rstrip (PyStr.rstrip s) = PyStr.rstrip s.
Proof.
  induction s as [|c s IH]; simpl; [reflexivity|].
  destruct (PyStr.rstrip s) as [|d r] eqn:E.
  - destruct (PyStr.isspace c) eqn:Ec; simpl; [reflexivity | now rewrite Ec].
  - change (PyStr.rstrip (String c (String d r))) with
      (match PyStr.rstrip (String d r) with
       | EmptyString =>
           if PyStr.isspace c then EmptyString else String c EmptyString
       | r' => String c r'
       end).
    now rewrite IH.
Qed.

(** A string that [lstrip] returns is empty or starts with a character that
    is no white space, and [rstrip] keeps that character in front. *)
Lemma lstrip_rstrip_head (s : string) :
  PyStr.lstrip (PyStr.rstrip (PyStr.lstrip s)) = PyStr.rstrip (PyStr.lstrip s).
Proof.
  induction s as [|c s IH]; simpl; [reflexivity|].
  destruct (PyStr.isspace c) eqn:Ec; [exact IH|].
  simpl. destruct (PyStr.rstrip s); rewrite ?Ec; simpl; now rewrite Ec.
Qed.

Lemma strip_idem (s : string) : PyStr.strip (PyStr.strip s) = PyStr.strip s.
Proof. unfold PyStr.strip. now rewrite lstrip_rstrip_head, rstrip_idem. Qed.

Lemma lstrip_app_space (ws s : string) :
  all_space ws = true -> PyStr.lstrip (ws ++ s) = PyStr.lstrip s.
Proof.
  induction ws as [|c ws IH]; simpl; [reflexivity|].
  intros H. apply andb_prop in H. destruct H as [Hc Hws].
  rewrite Hc. now apply IH.
Qed.

Lemma rstrip_all_space (ws : string) :
  all_space ws = true -> PyStr.rstrip ws = "".
Proof.
  induction ws as [|c ws IH]; simpl; [reflexivity|].
  intros H. apply andb_prop in H. destruct H as [Hc Hws].
  now rewrite (IH Hws), Hc.
Qed.

Lemma rstrip_app_space (s ws : string) :
  all_space ws = true -> PyStr.rstrip (s ++ ws) = PyStr.rstrip s.
Proof.
  intros H. induction s as [|c s IH]; simpl.
  - now apply rstrip_all_space.
  - now rewrite IH.
Qed.

Lemma lstrip_all_space (ws : string) :
  all_space ws = true -> PyStr.lstrip ws = "".
Proof.
  induction ws as [|c ws IH]; simpl; [reflexivity|].
  intros H. apply andb_prop in H. destruct H as [Hc Hws].
  rewrite Hc. now apply IH.
Qed.

Lemma strip_app_space (s ws : string) :
  all_space ws = true -> PyStr.strip (s ++ ws) = PyStr.strip s.
Proof.
  intros H. unfold PyStr.strip. induction s as [|c s IH]; simpl.
  - now rewrite (lstrip_all_space ws H).
  - destruct (PyStr.isspace c); [exact IH|].
    apply (rstrip_app_space (String c s) ws H).
Qed.

Lemma strip_pad (pre s post : string) :
  all_space pre = true -> all_space post = true ->
  PyStr.strip (pre ++ s ++ post) = PyStr.strip s.
Proof.
  intros Hpre Hpost. rewrite <- (strip_app_space s post Hpost).
  unfold PyStr.strip. now rewrite lstrip_app_space.
Qed.

Lemma all_space_lower (ws : string) :
  all_space (PyStr.lower ws) = all_space ws.
Proof.
  induction ws as [|c ws IH]; simpl; [reflexivity|].
  now rewrite isspace_lower_char, IH.
Qed.

(** [validate_move] looks at its input through its lower-cased, trimmed
    form only. *)
Lemma validate_move_token (s1 s2 : string) (used : bool) :
  PyStr.strip (PyStr.lower s1) = PyStr.strip (PyStr.lower s2) ->
  validate_move s1 used = validate_move s2 used.
Proof. intros H. unfold validate_move. now rewrite H. Qed.

Lemma validate_move_strip (s : string) (used : bool) :
  validate_move (PyStr.strip s) used = validate_move s used.
Proof. apply validate_move_token. now rewrite !strip_lower, strip_idem. Qed.

(** X1. Validation does not depend on the case of the letters or on white
    space around the input: trimming the input first, lower-casing it first,
    or putting white space before and after it gives the same result. *)
Theorem validate_move_normalization (s : string) (used : bool) :
  validate_move (PyStr.strip s) used = validate_move s used
  /\ validate_move (PyStr.lower s) used = validate_move s used
  /\ (forall pre post,
        all_space pre = true -> all_space post = true ->
        validate_move (pre ++ s ++ post) used = validate_move s used).
Proof.
  split; [|split].
  - apply validate_move_token.
    now rewrite !strip_lower, strip_idem.
  - apply validate_move_token. now rewrite lower_idem.
  - intros pre post Hpre Hpost. apply validate_move_token.
    rewrite !lower_app. apply strip_pad; now rewrite all_space_lower.
Qed.

Lemma validate_move_normalization_witness :
  validate_move (String (ascii_of_nat 9) " Paper  ") false
  = validate_move "Paper" false.
Proof.
  apply (proj2 (proj2 (validate_move_normalization "Paper" false))
           (String (ascii_of_nat 9) " ") "  "); reflexivity.
Defined.

(** X2. The move of a valid result is in normal form: validated again, with
    the same flag, it gives the same result. *)
Theorem validate_move_idempotent (s : string) (used : bool) (m : string) :
  Val.move (validate_move s used) = Some m ->
  validate_move m used = validate_move s used.
Proof.
  intros H.
  assert (E : m = PyStr.strip (PyStr.lower s)).
  { unfold validate_move in H.
    destruct (negb (PyStr.mem (PyStr.strip (PyStr.lower s)) valid_moves));
      [discriminate H|].
    destruct (((PyStr.strip (PyStr.lower s)) =? "bomb")%string && used);
      [discriminate H|].
    cbn [Val.move] in H. congruence. }
  subst m. apply validate_move_token.
  rewrite (strip_lower s), lower_idem, (strip_lower (PyStr.strip s)).
  now rewrite strip_idem.
Qed.

Lemma validate_move_idempotent_witness :
  validate_move "scissors" true = validate_move " SCISSORS " true.
Proof.
  apply (validate_move_idempotent " SCISSORS " true "scissors"). reflexivity.
Defined.

(** ** The resolver as a game *)

(** X3. Between two of the four moves the resolver is fair: the user wins a
    pair exactly when the bot wins the swapped pair, a pair is drawn exactly
    when the swapped pair is, and the winner is never "invalid". *)
Theorem resolve_round_swap (u b : string) :
  In u valid_moves -> In b valid_moves ->
  (Res.winner (resolve_round u b) = "user"
   <-> Res.winner (resolve_round b u) = "bot")
  /\ (Res.winner (resolve_round u b) = "draw"
      <-> Res.winner (resolve_round b u) = "draw")
  /\ Res.winner (resolve_round u b) <> "invalid".
Proof.
  intros [Hu|[Hu|[Hu|[Hu|[]]]]] [Hb|[Hb|[Hb|[Hb|[]]]]]; subst u b;
    vm_compute; repeat split; intros H; try reflexivity; discriminate H.
Qed.

Lemma resolve_round_swap_witness :
  Res.winner (resolve_round "bomb" "scissors") = "user"
  <-> Res.winner (resolve_round "scissors" "bomb") = "bot".
Proof.
  apply (resolve_round_swap "bomb" "scissors"); simpl; tauto.
Defined.

(** X4. On any two strings the winner is one of "invalid", "draw", "user"
    and "bot"; it is "invalid" exactly when the user's move is the invalid
    marker, and "draw" exactly when the two moves are equal and not that
    marker.  So two different moves never draw, and a string that is no move
    at all still gets a winner: the bot, against every bot string that is
    different from it (the bomb included). *)
Theorem resolve_round_winner (u b : string) :
  In (Res.winner (resolve_round u b)) ["invalid"; "draw"; "user"; "bot"]
  /\ (Res.winner (resolve_round u b) = "invalid" <-> u = "invalid")
  /\ (Res.winner (resolve_round u b) = "draw" <-> u = b /\ u <> "invalid")
  /\ (~ In u ("invalid" :: valid_moves) -> u <> b ->
      Res.winner (resolve_round u b) = "bot").
Proof.
  split; [|split; [apply resolve_round_invalid_iff|split]].
  - unfold resolve_round.
    repeat match goal with
      | |- context [if ?c then _ else _] => destruct c
      end; simpl; tauto.
  - unfold resolve_round.
    destruct (String.eqb_spec u "invalid") as [Ei|Ei];
      [cbn [Res.winner]; split; [discriminate | tauto]|].
    destruct (String.eqb_spec u b) as [Eb|Eb];
      [cbn [Res.winner]; tauto|].
    repeat match goal with
      | |- context [if ?c then _ else _] => destruct c
      end; cbn [Res.winner]; split; try discriminate; tauto.
  - intros Hu Hub. unfold resolve_round.
    destruct (String.eqb_spec u "invalid") as [Ei|Ei];
      [exfalso; apply Hu; left; congruence|].
    destruct (String.eqb_spec u b) as [Eb|Eb]; [contradiction|].
    destruct (String.eqb_spec u "bomb") as [E1|E1];
      [exfalso; apply Hu; simpl; intuition congruence|].
    destruct (String.eqb_spec b "bomb") as [E2|E2]; [reflexivity|].
    unfold pair_mem, user_wins. cbn [existsb fst snd].
    destruct (String.eqb_spec u "rock");
      [exfalso; apply Hu; simpl; intuition congruence|].
    destruct (String.eqb_spec u "paper");
      [exfalso; apply Hu; simpl; intuition congruence|].
    destruct (String.eqb_spec u "scissors");
      [exfalso; apply Hu; simpl; intuition congruence|].
    reflexivity.
Qed.

Lemma resolve_round_winner_witness :
  Res.winner (resolve_round "lizard" "rock") = "bot"
  /\ Res.winner (resolve_round "lizard" "bomb") = "bot".
Proof.
  split.
  - apply (proj2 (proj2 (proj2 (resolve_round_winner "lizard" "rock")))).
    + simpl. intros [H|[H|[H|[H|[H|[]]]]]]; discriminate H.
    + discriminate.
  - apply (proj2 (proj2 (proj2 (resolve_round_winner "lizard" "bomb")))).
    + simpl. intros [H|[H|[H|[H|[H|[]]]]]]; discriminate H.
    + discriminate.
Defined.

(** ** Scores and history *)

Lemma count_app (p : Res.t -> bool) (h1 h2 : list Res.t) :
  count p (h1 ++ h2) = count p h1 + count p h2.
Proof. unfold count. now rewrite filter_app, length_app, Nat2Z.inj_add. Qed.

Lemma count_one (p : Res.t -> bool) (r : Res.t) :
  count p [r] = if p r then 1 else 0.
Proof. unfold count. simpl. destruct (p r); reflexivity. Qed.

Lemma count_cons (p : Res.t -> bool) (r : Res.t) (h : list Res.t) :
  count p (r :: h) = (if p r then 1 else 0) + count p h.
Proof. change (r :: h) with ([r] ++ h)%list. now rewrite count_app, count_one. Qed.

Lemma count_nonneg (p : Res.t -> bool) (h : list Res.t) : 0 <= count p h.
Proof. unfold count. lia. Qed.

(** X5. Any number of updates, from any state: the round grows by the number
    of results, each score by the number of results its side won, the
    results are appended to the history in order with the entries before
    them untouched, and the flag [API_AVAILABLE] stays as it was. *)
Theorem updates_totals (results : list Res.t) (g : Globals) :
  let st := state g in
  let st' := state (updates results g) in
  round st' = round st + Z.of_nat (List.length results)
  /\ user_score st' = user_score st + count (won_by "user") results
  /\ bot_score st' = bot_score st + count (won_by "bot") results
  /\ history st' = (history st ++ results)%list
  /\ API_AVAILABLE (updates results g) = API_AVAILABLE g.
Proof.
  cbv zeta. revert g.
  induction results as [|r rs IH]; intros g.
  - cbn [updates List.length]. unfold count. cbn [filter List.length].
    rewrite app_nil_r. repeat split; lia.
  - cbn [updates]. destruct (IH (snd (update_game_state r g)))
      as (I1 & I2 & I3 & I4 & I5).
    rewrite I1, I2, I3, I4, I5, !count_cons.
    rewrite update_game_state_updated. cbn [snd state API_AVAILABLE].
    unfold updated, won_by. cbn [round user_score bot_score history].
    rewrite <- app_assoc. cbn [List.length app].
    repeat split; try reflexivity;
      repeat match goal with
        | |- context [if ?c then _ else _] => destruct c
        end; lia.
Qed.

Lemma reachable_scores (g : Globals) :
  reachable g ->
  user_score (state g) = count (won_by "user") (history (state g))
  /\ bot_score (state g) = count (won_by "bot") (history (state g))
  /\ round (state g)
     = count (won_by "user") (history (state g))
       + count (won_by "bot") (history (state g))
       + count (fun r => negb (won_by "user" r || won_by "bot" r))
           (history (state g)).
Proof.
  intros Hg.
  induction Hg as [g H | r g _ (IH1 & IH2 & IH3)].
  - rewrite H. repeat split.
  - rewrite state_update_game_state. unfold updated.
    cbn [round user_score bot_score history].
    rewrite !count_app, !count_one. unfold won_by in *. cbv beta.
    destruct (String.eqb_spec (Res.winner r) "user") as [E|E];
      destruct (String.eqb_spec (Res.winner r) "bot") as [E'|E'];
      cbn [orb negb]; try (repeat split; lia).
    rewrite E in E'. discriminate E'.
Qed.

(** X6. In every state reachable from a fresh one, each score is the number
    of rounds of the history its side won, and the rounds nobody won (draws
    and wasted rounds) make up the rest of the round count.  So the line of
    the final result names the side that won more rounds of the history, and
    is the draw line exactly when both won as many. *)
Theorem scores_count_history (g : Globals) :
  reachable g ->
  let h := history (state g) in
  user_score (state g) = count (won_by "user") h
  /\ bot_score (state g) = count (won_by "bot") h
  /\ round (state g)
     = count (won_by "user") h + count (won_by "bot") h
       + count (fun r => negb (won_by "user" r || won_by "bot" r)) h
  /\ (verdict (state g) = " Result: User wins!"
      <-> count (won_by "bot") h < count (won_by "user") h)
  /\ (verdict (state g) = " Result: Bot wins!"
      <-> count (won_by "user") h < count (won_by "bot") h)
  /\ (verdict (state g) = " Result: Draw!"
      <-> count (won_by "user") h = count (won_by "bot") h).
Proof.
  intros Hg. cbv zeta.
  destruct (reachable_scores g Hg) as (H1 & H2 & H3).
  split; [exact H1|]. split; [exact H2|]. split; [exact H3|].
  unfold verdict. rewrite H1, H2.
  destruct (Z.ltb_spec (count (won_by "bot") (history (state g)))
                       (count (won_by "user") (history (state g))));
    [|destruct (Z.ltb_spec (count (won_by "user") (history (state g)))
                           (count (won_by "bot") (history (state g))))];
    repeat split; intros H'; try reflexivity; try discriminate H'; lia.
Qed.

Lemma scores_count_history_witness :
  let g := updates [resolve_round "rock" "scissors"; wasted_round "bomb";
                    resolve_round "rock" "paper"]
             (module_init None false) in
  user_score (state g) = count (won_by "user") (history (state g))
  /\ bot_score (state g) = count (won_by "bot") (history (state g)).
Proof.
  cbv zeta.
  match goal with
  | |- context [state ?g] =>
      destruct (scores_count_history g) as (H1 & H2 & _);
      [apply reachable_updates, reach_fresh; reflexivity | split; assumption]
  end.
Defined.

(** ** One turn *)

Lemma validate_move_cases (s : string) (used : bool) :
  (Val.valid (validate_move s used) = false
   /\ Val.move (validate_move s used) = None)
  \/ (Val.valid (validate_move s used) = true
      /\ Val.move (validate_move s used) = Some (PyStr.strip (PyStr.lower s))
      /\ In (PyStr.strip (PyStr.lower s)) valid_moves
      /\ (PyStr.strip (PyStr.lower s) = "bomb" -> used = false)).
Proof.
  unfold validate_move.
  destruct (PyStr.mem (PyStr.strip (PyStr.lower s)) valid_moves) eqn:Hm;
    cbn [negb]; [|left; split; reflexivity].
  apply mem_In in Hm.
  destruct (String.eqb_spec (PyStr.strip (PyStr.lower s)) "bomb") as [E|E];
    destruct used; cbn [andb]; [left; split; reflexivity | | |];
    right; repeat split; try assumption; try reflexivity; congruence.
Qed.

Lemma turn_result_wasted (draw : nat) (user_input : string) (st : GameState) :
  Val.valid (validate_move user_input (user_bomb_used st)) = false ->
  turn_result draw user_input st
  = wasted_round (random_choice draw (candidates (bot_bomb_used st))).
Proof. intros H. unfold turn_result. cbv zeta. now rewrite H. Qed.

Lemma turn_result_valid (draw : nat) (user_input : string) (st : GameState) :
  Val.valid (validate_move user_input (user_bomb_used st)) = true ->
  turn_result draw user_input st
  = resolve_round (PyStr.strip (PyStr.lower user_input))
      (random_choice draw (candidates (bot_bomb_used st))).
Proof.
  intros H. unfold turn_result. cbv zeta.
  destruct (validate_move_cases user_input (user_bomb_used st))
    as [[H1 _] | (_ & H2 & _)]; [congruence|].
  now rewrite H, H2.
Qed.

Lemma candidates_valid (used : bool) (m : string) :
  In m (candidates used) -> In m valid_moves /\ (used = true -> m <> "bomb").
Proof.
  destruct used; simpl; intros H.
  - split; [tauto|]. intros _ ->.
    repeat (destruct H as [H|H]; [discriminate H|]); exact H.
  - split; [tauto | discriminate].
Qed.

Lemma bot_choice_valid (draw : nat) (used : bool) :
  In (random_choice draw (candidates used)) valid_moves
  /\ (used = true -> random_choice draw (candidates used) <> "bomb").
Proof.
  apply candidates_valid, random_choice_In. destruct used; discriminate.
Qed.

(** X7. A turn on an input that passes validation plays the input's token
    (lower-cased and trimmed) against the bot's choice: the state is updated
    with, and the narration made of, what [resolve_round] returns for the
    two; the user's bomb flag is set by the turn exactly when the token is
    the bomb, and was not set before. *)
Theorem run_turn_valid (draw : nat) (user_input : string) (g : Globals) :
  Val.valid (validate_move user_input (user_bomb_used (state g))) = true ->
  let token := PyStr.strip (PyStr.lower user_input) in
  let result := resolve_round token (fst (bot_move draw g)) in
  run_turn draw user_input g
  = generate_referee_response result (snd (update_game_state result g))
  /\ In token valid_moves
  /\ (token = "bomb" ->
      user_bomb_used (state g) = false
      /\ user_bomb_used (state (snd (run_turn draw user_input g))) = true)
  /\ (token <> "bomb" ->
      user_bomb_used (state (snd (run_turn draw user_input g)))
      = user_bomb_used (state g)).
Proof.
  intros H. cbv zeta. rewrite bot_move_eq. cbn [fst].
  rewrite state_run_turn, run_turn_eq. cbv zeta.
  rewrite (turn_result_valid draw user_input (state g) H).
  destruct (validate_move_cases user_input (user_bomb_used (state g)))
    as [[H1 _] | (_ & _ & Hin & Hb)]; [congruence|].
  split; [reflexivity|]. split; [exact Hin|].
  unfold updated. cbn [user_bomb_used].
  rewrite (proj1 (resolve_round_moves _ _)).
  split.
  - intros E. split; [exact (Hb E)|]. now rewrite E.
  - intros E. destruct (String.eqb_spec (PyStr.strip (PyStr.lower user_input)) "bomb");
      [contradiction | reflexivity].
Qed.

Lemma run_turn_valid_witness :
  let g := module_init None false in
  run_turn 0 " BOMB " g
  = generate_referee_response (resolve_round "bomb" "rock")
      (snd (update_game_state (resolve_round "bomb" "rock") g)).
Proof.
  cbv zeta.
  apply (proj1 (run_turn_valid 0 " BOMB " (module_init None false) eq_refl)).
Defined.

(** X8. A turn on an input that fails validation (no move at all, or the
    bomb when it is used up) wastes the round: the round count still grows
    by 1 and the round is recorded in the history with the invalid marker,
    but no score and not the user's bomb flag change, and the narration is
    the invalid-move notice with the scores as they were, whatever the input
    was.  The bot's draw still counts: if it drew its bomb, its bomb is
    spent. *)
Theorem run_turn_wasted (draw : nat) (user_input : string) (g : Globals) :
  Val.valid (validate_move user_input (user_bomb_used (state g))) = false ->
  let st := state g in
  let bot_choice := fst (bot_move draw g) in
  let st' := state (snd (run_turn draw user_input g)) in
  fst (run_turn draw user_input g)
  = " Round " ++ PyStr.of_int (round st + 1) ++ ": Invalid move! Round wasted."
    ++ newline ++ "Score: You " ++ PyStr.of_int (user_score st)
    ++ " | Bot " ++ PyStr.of_int (bot_score st)
  /\ round st' = round st + 1
  /\ user_score st' = user_score st
  /\ bot_score st' = bot_score st
  /\ user_bomb_used st' = user_bomb_used st
  /\ bot_bomb_used st' = (bot_choice =? "bomb")%string || bot_bomb_used st
  /\ history st' = (history st ++ [wasted_round bot_choice])%list.
Proof.
  intros H. cbv zeta. rewrite bot_move_eq. cbn [fst].
  rewrite state_run_turn, run_turn_eq. cbv zeta.
  rewrite (turn_result_wasted draw user_input (state g) H).
  rewrite update_game_state_updated. cbn [snd].
  unfold generate_referee_response, bind, read, ret, updated, wasted_round.
  cbn [state round user_score bot_score Res.user_move Res.winner Res.bot_move
       user_bomb_used bot_bomb_used history fst].
  repeat split.
Qed.

Lemma run_turn_wasted_witness :
  let g := module_init None false in
  user_score (state (snd (run_turn 3 "lizard" g))) = 0
  /\ bot_bomb_used (state (snd (run_turn 3 "lizard" g))) = true.
Proof.
  cbv zeta.
  destruct (run_turn_wasted 3 "lizard" (module_init None false) eq_refl)
    as (_ & _ & Hu & _ & _ & Hb & _).
  split; [exact Hu | exact Hb].
Defined.

(** ** Whole games *)

Lemma play_invariant (P : GameState -> Prop) :
  (forall draw user_input g,
     P (state g) -> P (state (snd (run_turn draw user_input g)))) ->
  forall turns g, P (state g) -> P (state (snd (play turns g))).
Proof.
  intros Hstep turns.
  induction turns as [|[draw user_input] rest IH]; intros g H;
    cbn [play]; [exact H|].
  pose proof (Hstep draw user_input g H) as H'.
  destruct (run_turn draw user_input g) as [line g']. cbn [snd] in H'.
  specialize (IH g' H'). destruct (play rest g') as [lines g''].
  exact IH.
Qed.

Lemma turn_result_user_bomb (draw : nat) (user_input : string) (st : GameState) :
  Res.user_move (turn_result draw user_input st) = "bomb" ->
  user_bomb_used st = false.
Proof.
  destruct (Val.valid (validate_move user_input (user_bomb_used st))) eqn:H.
  - rewrite (turn_result_valid _ _ _ H), (proj1 (resolve_round_moves _ _)).
    destruct (validate_move_cases user_input (user_bomb_used st))
      as [[H1 _] | (_ & _ & _ & Hb)]; [congruence | exact Hb].
  - rewrite (turn_result_wasted _ _ _ H). discriminate.
Qed.

Lemma turn_result_bot_move (draw : nat) (user_input : string) (st : GameState) :
  Res.bot_move (turn_result draw user_input st)
  = random_choice draw (candidates (bot_bomb_used st)).
Proof.
  destruct (Val.valid (validate_move user_input (user_bomb_used st))) eqn:H.
  - now rewrite (turn_result_valid _ _ _ H), (proj2 (resolve_round_moves _ _)).
  - now rewrite (turn_result_wasted _ _ _ H).
Qed.

(** X9. In a game played from a fresh state, through any inputs and draws
    and for any number of turns, each side plays the bomb at most once: the
    history holds one round with the user's bomb when [user_bomb_used] is
    true and none when it is false, and likewise for the bot. *)
Theorem bomb_at_most_once (turns : list (nat * string)) (g : Globals) :
  state g = GameState_init ->
  let st := state (snd (play turns g)) in
  count user_bombed (history st) = (if user_bomb_used st then 1 else 0)
  /\ count bot_bombed (history st) = (if bot_bomb_used st then 1 else 0)
  /\ count user_bombed (history st) <= 1
  /\ count bot_bombed (history st) <= 1.
Proof.
  intros H. cbv zeta.
  assert (I : count user_bombed (history (state (snd (play turns g))))
              = (if user_bomb_used (state (snd (play turns g))) then 1 else 0)
              /\ count bot_bombed (history (state (snd (play turns g))))
                 = (if bot_bomb_used (state (snd (play turns g))) then 1 else 0)).
  { apply (play_invariant
             (fun st =>
                count user_bombed (history st)
                = (if user_bomb_used st then 1 else 0)
                /\ count bot_bombed (history st)
                   = (if bot_bomb_used st then 1 else 0))).
    - clear. intros draw user_input g [Iu Ib].
      rewrite state_run_turn. unfold updated.
      cbn [history user_bomb_used bot_bomb_used].
      rewrite !count_app, !count_one, Iu, Ib. unfold user_bombed, bot_bombed.
      split.
      + destruct (String.eqb_spec
                    (Res.user_move (turn_result draw user_input (state g))) "bomb")
          as [E|E]; cbn [orb]; [|lia].
        now rewrite (turn_result_user_bomb _ _ _ E).
      + rewrite turn_result_bot_move.
        destruct (String.eqb_spec
                    (random_choice draw (candidates (bot_bomb_used (state g))))
                    "bomb") as [E|E]; cbn [orb]; [|lia].
        destruct (bot_bomb_used (state g)) eqn:Eb; [|reflexivity].
        exfalso. exact (proj2 (bot_choice_valid draw true) eq_refl E).
    - rewrite H. split; reflexivity. }
  destruct I as [Iu Ib]. rewrite Iu, Ib.
  repeat split;
    [destruct (user_bomb_used _) | destruct (bot_bomb_used _)]; lia.
Qed.

Lemma bomb_at_most_once_witness :
  let g := snd (play [(3, "bomb"); (3, "BOMB"); (3, " bomb ")]%nat
                  (module_init None false)) in
  count user_bombed (history (state g)) <= 1
  /\ count bot_bombed (history (state g)) <= 1.
Proof.
  cbv zeta.
  destruct (bomb_at_most_once [(3, "bomb"); (3, "BOMB"); (3, " bomb ")]%nat
              (module_init None false) eq_refl) as (_ & _ & Hu & Hb).
  split; [exact Hu | exact Hb].
Defined.

Lemma turn_result_shaped (draw : nat) (user_input : string) (st : GameState) :
  turn_shaped (turn_result draw user_input st).
Proof.
  unfold turn_shaped.
  destruct (Val.valid (validate_move user_input (user_bomb_used st))) eqn:H.
  - rewrite (turn_result_valid _ _ _ H).
    destruct (resolve_round_moves (PyStr.strip (PyStr.lower user_input))
                (random_choice draw (candidates (bot_bomb_used st)))) as [Eu Eb].
    rewrite Eu, Eb.
    destruct (validate_move_cases user_input (user_bomb_used st))
      as [[H1 _] | (_ & _ & Hin & _)]; [congruence|].
    split; [apply bot_choice_valid|]. split; [right; exact Hin | reflexivity].
  - rewrite (turn_result_wasted _ _ _ H). unfold wasted_round.
    cbn [Res.user_move Res.bot_move].
    split; [apply bot_choice_valid|]. split; [left; reflexivity | reflexivity].
Qed.

(** X10. Every round in the history of a game played from a fresh state is
    as a turn builds it: the bot's move is rock, paper, scissors or bomb,
    the user's move is one of these or the invalid marker, and the round is
    what [resolve_round] returns for the two moves (the result a turn
    writes by hand for a wasted round is the resolver's too). *)
Theorem history_turn_shaped (turns : list (nat * string)) (g : Globals) :
  state g = GameState_init ->
  Forall turn_shaped (history (state (snd (play turns g))))
  /\ (forall bot_choice, wasted_round bot_choice = resolve_round "invalid" bot_choice).
Proof.
  intros H. split; [|reflexivity].
  apply (play_invariant (fun st => Forall turn_shaped (history st))).
  - clear. intros draw user_input g I.
    rewrite state_run_turn. unfold updated. cbn [history].
    apply Forall_app. split; [exact I|].
    constructor; [apply turn_result_shaped | constructor].
  - rewrite H. constructor.
Qed.

Lemma history_turn_shaped_witness :
  Forall turn_shaped
    (history (state (snd (play [(1, "rock"); (2, "?"); (3, "Bomb")]%nat
                            (module_init None false))))).
Proof.
  apply (history_turn_shaped [(1, "rock"); (2, "?"); (3, "Bomb")]%nat
           (module_init None false) eq_refl).
Defined.

(** ** The main loop *)

Lemma turn_result_strip (draw : nat) (user_input : string) (st : GameState) :
  turn_result draw (PyStr.strip user_input) st = turn_result draw user_input st.
Proof. unfold turn_result. cbv zeta. now rewrite validate_move_strip. Qed.

(** The [strip] of the main loop changes nothing: [run_turn] trims too. *)
Lemma run_turn_strip (draw : nat) (user_input : string) (g : Globals) :
  run_turn draw (PyStr.strip user_input) g = run_turn draw user_input g.
Proof. rewrite !run_turn_eq. cbv zeta. now rewrite turn_result_strip. Qed.

Lemma reachable_game_over (g : Globals) :
  reachable g -> game_over (state g) = (3 <=? round (state g)).
Proof.
  induction 1 as [g H | r g _ IH].
  - rewrite H. reflexivity.
  - rewrite state_update_game_state. unfold updated. cbn [round game_over].
    rewrite IH.
    destruct (Z.leb_spec 3 (round (state g) + 1)),
             (Z.leb_spec 3 (round (state g))); simpl; try reflexivity; lia.
Qed.

Lemma play_round (turns : list (nat * string)) (g : Globals) :
  round (state (snd (play turns g)))
  = round (state g) + Z.of_nat (List.length turns).
Proof.
  revert g. induction turns as [|[draw user_input] rest IH]; intros g;
    cbn [play List.length]; [cbn [snd]; lia|].
  pose proof (state_run_turn draw user_input g) as E.
  destruct (run_turn draw user_input g) as [line g']. cbn [snd] in E.
  specialize (IH g'). destruct (play rest g') as [lines g'']. cbn [snd] in *.
  rewrite IH, E. unfold updated. cbn [round]. lia.
Qed.

(** The loop is [play] on the first [rounds_left] lines. *)
Lemma main_loop_play (stdin : list (nat * string)) (g : Globals) :
  game_over (state g) = (3 <=? round (state g)) ->
  let k := rounds_left (state g) in
  let r := main_loop stdin g in
  run_globals r = snd (play (firstn k stdin) g)
  /\ run_stdin r = skipn k stdin
  /\ run_ending r
     = (if (k <=? List.length stdin)%nat then Returned else EOFError)
  /\ run_stdout r
     = (flat_map turn_output (fst (play (firstn k stdin) g))
        ++ (if (k <=? List.length stdin)%nat then [] else [prompt]))%list.
Proof.
  cbv zeta. revert g.
  induction stdin as [|[draw line] rest IH]; intros g Hg.
  - cbn [main_loop]. rewrite Hg. unfold rounds_left.
    rewrite firstn_nil, skipn_nil. cbn [play snd fst flat_map List.length app].
    destruct (Z.leb_spec 3 (round (state g))) as [L|L].
    + replace (Z.to_nat (3 - round (state g))) with 0%nat by lia.
      repeat split.
    + destruct (Z.to_nat (3 - round (state g))) eqn:E; [lia|].
      repeat split.
  - cbn [main_loop]. rewrite Hg. unfold rounds_left.
    destruct (Z.leb_spec 3 (round (state g))) as [L|L].
    + replace (Z.to_nat (3 - round (state g))) with 0%nat by lia.
      repeat split.
    + rewrite run_turn_strip.
      pose proof (state_run_turn draw line g) as E.
      assert (K : Z.to_nat (3 - round (state g))
                  = S (Z.to_nat (3 - (round (state g) + 1)))) by lia.
      rewrite K. cbn [firstn skipn play List.length].
      destruct (run_turn draw line g) as [explanation g']. cbn [snd] in E.
      assert (Hg' : game_over (state g') = (3 <=? round (state g'))).
      { rewrite E. unfold updated. cbn [game_over round]. rewrite Hg.
        destruct (Z.leb_spec 3 (round (state g))); [lia|].
        apply orb_false_r. }
      destruct (IH g' Hg') as (I1 & I2 & I3 & I4).
      unfold rounds_left in I1, I2, I3, I4.
      assert (R : round (state g') = round (state g) + 1)
        by (rewrite E; reflexivity).
      rewrite R in I1, I2, I3, I4.
      cbn [run_globals run_stdin run_ending run_stdout].
      rewrite I1, I2, I3, I4.
      destruct (play (firstn (Z.to_nat (3 - (round (state g) + 1))) rest) g')
        as [lines g''].
      cbn [fst snd flat_map turn_output app]. repeat split.
Qed.

(** X11. [main], started in a state reachable from a fresh one, runs as many
    turns as rounds are missing to 3 (three turns when the state is fresh,
    none when the game is over) on the first lines of its input, exactly as
    [run_turn] would on the lines as typed, and reads no line beyond them.
    When the input has that many lines it returns with [game_over] true,
    having written the banner, a prompt and a narration per turn and the
    closing lines for the final state; when the input ends earlier, [input]
    raises [EOFError] after the last prompt, [game_over] is still false and
    nothing of the closing is written. *)
Theorem main_runs (gamepad_sign le_sign arrow_sign : string)
    (stdin : list (nat * string)) (g : Globals) :
  reachable g ->
  let k := rounds_left (state g) in
  let r := main gamepad_sign le_sign arrow_sign stdin g in
  run_globals r = snd (play (firstn k stdin) g)
  /\ run_stdin r = skipn k stdin
  /\ (state g = GameState_init -> k = 3%nat)
  /\ (game_over (state g) = true -> k = 0%nat)
  /\ ((k <= List.length stdin)%nat ->
      run_ending r = Returned
      /\ game_over (state (run_globals r)) = true
      /\ round (state (run_globals r)) = round (state g) + Z.of_nat k
      /\ run_stdout r
         = (banner gamepad_sign le_sign
            ++ flat_map turn_output (fst (play (firstn k stdin) g))
            ++ closing arrow_sign (state (run_globals r)))%list)
  /\ ((List.length stdin < k)%nat ->
      run_ending r = EOFError
      /\ game_over (state (run_globals r)) = false
      /\ run_globals r = snd (play stdin g)
      /\ run_stdout r
         = (banner gamepad_sign le_sign
            ++ flat_map turn_output (fst (play stdin g))
            ++ [prompt])%list).
Proof.
  intros Hg. cbv zeta.
  pose proof (reachable_game_over g Hg) as Hgo.
  destruct (main_loop_play stdin g Hgo) as (I1 & I2 & I3 & I4).
  assert (Hr : reachable (snd (play (firstn (rounds_left (state g)) stdin) g)))
    by now apply play_reachable.
  pose proof (reachable_game_over _ Hr) as Hgo'.
  pose proof (play_round (firstn (rounds_left (state g)) stdin) g) as Hround.
  unfold main. rewrite I3.
  destruct (Nat.leb_spec (rounds_left (state g)) (List.length stdin)) as [L|L];
    cbn [run_globals run_stdin run_ending run_stdout];
    rewrite I1, I2, I4.
  - split; [reflexivity|]. split; [reflexivity|].
    split; [intros E; unfold rounds_left; now rewrite E|].
    split; [intros E; unfold rounds_left; rewrite Hgo in E;
            apply Z.leb_le in E; lia|].
    split; [intros _ | intros L'; lia].
    rewrite length_firstn, Nat.min_l in Hround by exact L.
    split; [reflexivity|]. split; [|split; [exact Hround|]].
    + rewrite Hgo', Hround. apply Z.leb_le. unfold rounds_left. lia.
    + now rewrite app_nil_r.
  - split; [reflexivity|]. split; [reflexivity|].
    split; [intros E; unfold rounds_left; now rewrite E|].
    split; [intros E; unfold rounds_left; rewrite Hgo in E;
            apply Z.leb_le in E; lia|].
    split; [intros L'; lia | intros _].
    rewrite firstn_all2 in * by lia.
    split; [reflexivity|]. split; [|split; reflexivity].
    rewrite Hgo', Hround. apply Z.leb_gt. unfold rounds_left in L. lia.
Qed.

Lemma main_runs_witness :
  let r := main "*" "<=" "->"
             [(2, " Rock"); (0, "spock"); (3, "BOMB"); (1, "paper")]%nat
             (module_init None false) in
  run_ending r = Returned
  /\ run_stdin r = [(1%nat, "paper")]
  /\ round (state (run_globals r)) = 3.
Proof.
  cbv zeta.
  pose proof (main_runs "*" "<=" "->"
                [(2, " Rock"); (0, "spock"); (3, "BOMB"); (1, "paper")]%nat
                (module_init None false)
                (reach_fresh (module_init None false) eq_refl)) as H.
  cbv zeta in H. destruct H as (_ & H2 & _ & _ & H5 & _).
  destruct H5 as (E1 & _ & E3 & _); [vm_compute; lia|].
  split; [exact E1|]. split; [exact H2 | exact E3].
Defined.
